(** * Path enumeration of the [paths] goal

    A shallow embedding of [src/python/pants/backend/project_info/paths.py]:
    the breadth-first path finder [find_paths_breadth_first], the two
    fan-out rules and the [paths] goal rule, together with the properties
    the design document states about them. *)

From stdpp Require Import gmap strings list fin_maps pretty.

Open Scope Z_scope.

(** ** The path finder *)

Section PathFinder.

(** [Address] is the hashable key of the adjacency dictionary, [Target]
    the element type of a [Targets] collection; [address] is the
    attribute [dep.address]. *)
Context `{Countable Address}.
Context {Target : Type}.
Variable address : Target → Address.

(** A path is a Python list of addresses, an edge the tuple
    [(prev_target, target)] whose first component may be [None]. *)
Definition Path : Type := list Address.
Definition Edge : Type := option Address * Address.

(** The local variables of the generator.  [yielded] collects the
    values produced by [yield], [stderr] the arguments of
    [console.print_stderr], both in program order.  [dequeued] and
    [expanded] are history variables: the first records every
    [cur_path] taken from the queue, the second those for which the body
    of [if current_edge not in visited_edges] is entered. *)
Record BfsState : Type := mkBfs {
  visited_edges : gset Edge;
  to_walk_paths : list Path;
  paths_found : Z;
  edges_visited : Z;
  last_progress_update : Z;
  yielded : list Path;
  stderr : list string;
  dequeued : list Path;
  expanded : list Path
}.

(** Result of running the generator to exhaustion. *)
Inductive Run : Type :=
| Done (s : BfsState)
| IndexError
| OutOfFuel.

(** [(prev_target, target)] of lines 78-84, for a path whose last
    element is [target]. *)
Definition current_edge (cur_path : Path) (target : Address) : Edge :=
  (if decide (1 < length cur_path)%nat
   then cur_path !! (length cur_path - 2)%nat
   else None,
   target).

(** Lines 87-90. *)
Definition count_edge (s : BfsState) : BfsState :=
  let ev := edges_visited s + 1 in
  if decide (ev - last_progress_update s >= 1000) then
    mkBfs (visited_edges s) (to_walk_paths s) (paths_found s) ev ev
          (yielded s)
          (stderr s ++
             ["Exploring paths... Found " +:+ pretty (paths_found s) +:+
              " paths, visited " +:+ pretty ev +:+ " edges"])
          (dequeued s) (expanded s)
  else
    mkBfs (visited_edges s) (to_walk_paths s) (paths_found s) ev
          (last_progress_update s) (yielded s) (stderr s)
          (dequeued s) (expanded s).

(** One round of the [for dep in ...] loop, lines 93-100. *)
Definition visit_dep (to_target : Address) (cur_path : Path)
    (s : BfsState) (dep : Target) : BfsState :=
  let dep_path := cur_path ++ [address dep] in
  if decide (address dep = to_target) then
    let pf := paths_found s + 1 in
    mkBfs (visited_edges s) (to_walk_paths s) pf (edges_visited s)
          (last_progress_update s)
          (yielded s ++ [dep_path])
          (if decide (pf `mod` 100 = 0)
           then stderr s ++ ["Found " +:+ pretty pf +:+ " paths so far..."]
           else stderr s)
          (dequeued s) (expanded s)
  else
    mkBfs (visited_edges s) (to_walk_paths s ++ [dep_path]) (paths_found s)
          (edges_visited s) (last_progress_update s) (yielded s) (stderr s)
          (dequeued s) (expanded s).

(** Line 101, together with the history variable. *)
Definition mark_visited (e : Edge) (cur_path : Path) (s : BfsState) : BfsState :=
  mkBfs (visited_edges s ∪ {[ e ]}) (to_walk_paths s) (paths_found s)
        (edges_visited s) (last_progress_update s) (yielded s) (stderr s)
        (dequeued s) (expanded s ++ [cur_path]).

(** Line 77: [cur_path] has been taken from the front, [rest] stays. *)
Definition popleft (cur_path : Path) (rest : list Path) (s : BfsState) : BfsState :=
  mkBfs (visited_edges s) rest (paths_found s) (edges_visited s)
        (last_progress_update s) (yielded s) (stderr s)
        (dequeued s ++ [cur_path]) (expanded s).

(** [adjacency_lists.get(target, [])]. *)
Definition successors (adjacency_lists : gmap Address (list Target))
    (target : Address) : list Target :=
  default [] (adjacency_lists !! target).

(** The body of the [while] loop, lines 77-101, for the dequeued
    [cur_path]; [s] is the state after [popleft].  [None] stands for
    the [IndexError] of [cur_path[-1]] on an empty list. *)
Definition bfs_body (adjacency_lists : gmap Address (list Target))
    (to_target : Address) (cur_path : Path) (s : BfsState) : option BfsState :=
  match last cur_path with
  | None => None
  | Some target =>
      let e := current_edge cur_path target in
      if decide (e ∈ visited_edges s) then Some s
      else
        Some (mark_visited e cur_path
                (foldl (visit_dep to_target cur_path) (count_edge s)
                       (successors adjacency_lists target)))
  end.

(** The [while len(to_walk_paths) > 0] loop, bounded by [fuel]
    iterations. *)
Fixpoint bfs_loop (fuel : nat) (adjacency_lists : gmap Address (list Target))
    (to_target : Address) (s : BfsState) : Run :=
  match to_walk_paths s with
  | [] => Done s
  | cur_path :: rest =>
      match fuel with
      | O => OutOfFuel
      | S fuel' =>
          match bfs_body adjacency_lists to_target cur_path
                  (popleft cur_path rest s) with
          | None => IndexError
          | Some s' => bfs_loop fuel' adjacency_lists to_target s'
          end
      end
  end.

(** Lines 70-74. *)
Definition bfs_init (from_target : Address) : BfsState :=
  mkBfs ∅ [[from_target]] 0 0 0 [] [] [] [].

(** Lines 66-68: the state in which the generator returns after
    yielding [[from_target]]. *)
Definition bfs_self (from_target : Address) : BfsState :=
  mkBfs ∅ [] 0 0 0 [[from_target]] [] [] [].

Definition find_paths_breadth_first_fuel (fuel : nat)
    (adjacency_lists : gmap Address (list Target))
    (from_target to_target : Address) : Run :=
  if decide (from_target = to_target) then Done (bfs_self from_target)
  else bfs_loop fuel adjacency_lists to_target (bfs_init from_target).

(** Number of entries in all successor lists of the dictionary. *)
Definition total_successors (adjacency_lists : gmap Address (list Target)) : nat :=
  sum_list (length <$> (map_to_list adjacency_lists).*2).

(** A number of iterations no run exceeds (see [bfs_loop_terminates]). *)
Definition bfs_fuel (adjacency_lists : gmap Address (list Target)) : nat :=
  let n := S (total_successors adjacency_lists) in S (n * S n).

Definition find_paths_breadth_first
    (adjacency_lists : gmap Address (list Target))
    (from_target to_target : Address) : Run :=
  find_paths_breadth_first_fuel (bfs_fuel adjacency_lists)
    adjacency_lists from_target to_target.

(** The materialised sequence of yielded paths, as a consumer that
    drains the generator sees it. *)
Definition paths_of (r : Run) : list Path :=
  match r with Done s => yielded s | _ => [] end.

(** *** Auxiliary notions used to state the properties *)

(** The ordered pairs of consecutive nodes of a path. *)
Definition consecutive_pairs (p : Path) : list (Address * Address) :=
  zip p (tail p).

(** The edge under which a dequeued path is looked up in
    [visited_edges]. *)
Definition path_edge (p : Path) : option Edge :=
  current_edge p <$> last p.

(** What one execution of the [for] loop on [cur_path] appends to the
    queue and what it yields. *)
Definition enqueued_by (to_target : Address) (cur_path : Path)
    (deps : list Target) : list Path :=
  (λ d, cur_path ++ [address d]) <$> filter (λ d, address d ≠ to_target) deps.

Definition found_by (to_target : Address) (cur_path : Path)
    (deps : list Target) : list Path :=
  (λ d, cur_path ++ [address d]) <$> filter (λ d, address d = to_target) deps.

(** The successor list consulted when [cur_path] is expanded. *)
Definition successors_of_last (adjacency_lists : gmap Address (list Target))
    (cur_path : Path) : list Target :=
  match last cur_path with
  | Some target => successors adjacency_lists target
  | None => []
  end.

(** Paths appear in non-decreasing length order. *)
Definition ordered_by_length (l : list Path) : Prop :=
  ∀ (i j : nat) (p q : Path),
    (i < j)%nat → l !! i = Some p → l !! j = Some q →
    (length p ≤ length q)%nat.

(** Every edge a run can ever look up: the starting edge and one edge
    per entry of a successor list. *)
Definition all_edges (adjacency_lists : gmap Address (list Target))
    (from_target : Address) : list Edge :=
  (None, from_target) ::
  (map_to_list adjacency_lists ≫=
     (λ kv, (λ d, (Some kv.1, address d)) <$> kv.2)).

Definition unvisited (adjacency_lists : gmap Address (list Target))
    (from_target : Address) (s : BfsState) : list Edge :=
  filter (λ e, e ∉ visited_edges s) (all_edges adjacency_lists from_target).

(** Termination measure of the [while] loop. *)
Definition bfs_measure (adjacency_lists : gmap Address (list Target))
    (from_target : Address) (s : BfsState) : nat :=
  (length (to_walk_paths s) +
   S (total_successors adjacency_lists) *
     length (unvisited adjacency_lists from_target s))%nat.

(** The dequeued path was skipped: its edge had been visited. *)
Definition skipped (s : BfsState) (p : Path) (rest : list Path)
    (t : Address) (s' : BfsState) : Prop :=
  current_edge p t ∈ visited_edges s ∧
  visited_edges s' = visited_edges s ∧
  to_walk_paths s' = rest ∧
  yielded s' = yielded s ∧
  expanded s' = expanded s ∧
  edges_visited s' = edges_visited s.

(** The dequeued path was expanded. *)
Definition expanded_step (adj : gmap Address (list Target))
    (to_target : Address) (s : BfsState) (p : Path) (rest : list Path)
    (t : Address) (s' : BfsState) : Prop :=
  (current_edge p t ∉ visited_edges s) ∧
  visited_edges s' = visited_edges s ∪ {[ current_edge p t ]} ∧
  to_walk_paths s' = rest ++ enqueued_by to_target p (successors adj t) ∧
  yielded s' = yielded s ++ found_by to_target p (successors adj t) ∧
  expanded s' = expanded s ++ [p] ∧
  edges_visited s' = (edges_visited s + 1).

(** *** Invariants of the [while] loop *)

(** [p] has been expanded: it starts at the root, avoids the
    destination, repeats no edge, and each of its edges is an edge of
    the dictionary that is marked visited. *)
Definition explored (adj : gmap Address (list Target))
    (root dest : Address) (V : gset Edge) (p : Path) : Prop :=
  head p = Some root ∧ (dest ∉ p) ∧ NoDup (consecutive_pairs p) ∧
  ∀ u v, (u, v) ∈ consecutive_pairs p →
         (Some u, v) ∈ V ∧ v ∈ address <$> successors adj u.

(** Shape of a path waiting in the queue. *)
Definition queued (adj : gmap Address (list Target))
    (root dest : Address) (V : gset Edge) (q : Path) : Prop :=
  q = [root] ∨
  ∃ pre t d, q = pre ++ [d] ∧ last pre = Some t ∧
             explored adj root dest V pre ∧
             d ≠ dest ∧ d ∈ address <$> successors adj t.

(** Shape of a yielded path. *)
Definition found (adj : gmap Address (list Target))
    (root dest : Address) (V : gset Edge) (y : Path) : Prop :=
  ∃ pre t, y = pre ++ [dest] ∧ last pre = Some t ∧
           explored adj root dest V pre ∧
           dest ∈ address <$> successors adj t.

Definition shape_inv (adj : gmap Address (list Target))
    (root dest : Address) (s : BfsState) : Prop :=
  (∀ q, q ∈ to_walk_paths s → queued adj root dest (visited_edges s) q) ∧
  (∀ y, y ∈ yielded s → found adj root dest (visited_edges s) y).

(** The history variable agrees with the program's own bookkeeping. *)
Definition history_inv (adj : gmap Address (list Target))
    (dest : Address) (s : BfsState) : Prop :=
  (∀ e, e ∈ visited_edges s ↔ Some e ∈ path_edge <$> expanded s) ∧
  NoDup (path_edge <$> expanded s) ∧
  (None ∉ path_edge <$> expanded s) ∧
  edges_visited s = Z.of_nat (length (expanded s)) ∧
  yielded s =
    expanded s ≫= (λ p, found_by dest p (successors_of_last adj p)).

(** The counter [edges_visited] is the number of visited edges. *)
Definition counter_inv (s : BfsState) : Prop :=
  edges_visited s = Z.of_nat (size (visited_edges s)).

(** Lengths in the queue and in the output. *)
Definition order_inv (s : BfsState) : Prop :=
  ordered_by_length (to_walk_paths s) ∧
  (∀ p q, p ∈ to_walk_paths s → q ∈ to_walk_paths s →
          (length q ≤ S (length p))%nat) ∧
  ordered_by_length (yielded s) ∧
  (∀ y q, y ∈ yielded s → q ∈ to_walk_paths s →
          (length y ≤ S (length q))%nat).

End PathFinder.

Arguments Path Address : clear implicits.
Arguments Edge Address : clear implicits.
Arguments BfsState Address {_ _}.
Arguments Run Address {_ _}.

(** ** Rules: effects and failures *)

(** What a rule does besides returning: it prints to the console, calls
    the engine's graph rules, and writes the result.  The calls are
    recorded so that they can be counted. *)
Inductive Event (Address Target : Type) : Type :=
| PrintStderr (msg : string)
| TransitiveTargets (root : Address)
| ResolveDependencies (tgt : Target)
| ResolveSpecs (description_of_origin spec : string)
| WriteStdout (all_spec_paths : list (list string)).

Arguments PrintStderr {Address Target} msg.
Arguments TransitiveTargets {Address Target} root.
Arguments ResolveDependencies {Address Target} tgt.
Arguments ResolveSpecs {Address Target} description_of_origin spec.
Arguments WriteStdout {Address Target} all_spec_paths.

(** Exceptions.  [External] is a failure raised inside an engine rule
    this file only calls; [Diverged] stands for a generator that does
    not come to an end. *)
Inductive Exn (ExtErr : Type) : Type :=
| ValueError (msg : string)
| PyIndexError
| Diverged
| External (e : ExtErr).

Arguments ValueError {ExtErr} msg.
Arguments PyIndexError {ExtErr}.
Arguments Diverged {ExtErr}.
Arguments External {ExtErr} e.

Module Rule.
Section Monad.

Context {Ev Err : Type}.

(** A computation yields the events it performed, in order, and
    either an exception or a value. *)
Definition M (A : Type) : Type := list Ev * (Err + A).

Definition ret {A} (a : A) : M A := ([], inr a).

Definition raise {A} (e : Err) : M A := ([], inl e).

Definition emit (ev : Ev) : M unit := ([ev], inr tt).

Definition bind {A B} (m : M A) (f : A → M B) : M B :=
  match m with
  | (w, inl e) => (w, inl e)
  | (w, inr a) => let '(w', r) := f a in (w ++ w', r)
  end.

Definition log {A} (m : M A) : list Ev := m.1.
Definition result {A} (m : M A) : Err + A := m.2.

End Monad.
End Rule.

Arguments Rule.M Ev Err A : clear implicits.
Arguments Rule.bind : simpl never.

Notation "'let*' x ':=' m 'in' k" := (Rule.bind m (λ x, k))
  (at level 10, x binder, m at level 100, k at level 200,
   format "'[v' 'let*'  x  :=  m  'in'  '/' k ']'").

Section Rules.

Context `{Countable Address} {Target ExtErr : Type}.

(** [tgt.address], [address.spec] and the text an f-string shows for
    an address. *)
Variable address : Target → Address.
Variable spec : Address → string.
Variable address_str : Address → string.

(** The engine rules called with [await]: the closure of
    [transitive_targets_get] for a one-address request, the targets
    [resolve_targets] returns for the [Dependencies] field of a
    target, and the targets it returns for a parsed spec.  Each may
    fail. *)
Variable transitive_targets_get : Address → ExtErr + list Target.
Variable resolve_dependencies : Target → ExtErr + list Target.
Variable resolve_specs : string → string → ExtErr + list Target.

Local Abbreviation Ev := (Event Address Target).
Local Abbreviation M := (Rule.M Ev (Exn ExtErr)).

Definition print_stderr (msg : string) : M unit :=
  Rule.emit (PrintStderr msg).

(** An awaited engine rule: the call is recorded, its failure
    propagates. *)
Definition await {A} (ev : Ev) (r : ExtErr + A) : M A :=
  ([ev], match r with inl e => inl (External e) | inr a => inr a end).

(** [await concurrently(...)]: the results come back in the order of
    the requests.  The requests are run one after the other here. *)
Fixpoint concurrently {A} (ms : list (M A)) : M (list A) :=
  match ms with
  | [] => Rule.ret []
  | m :: ms' =>
      let* a := m in let* r := concurrently ms' in Rule.ret (a :: r)
  end.

(** [dict(zip(keys, values))]: a later pair overwrites an earlier one
    with the same key. *)
Definition dict_zip {V} (keys : list Address) (values : list V) : gmap Address V :=
  foldl (λ m kv, <[kv.1 := kv.2]> m) ∅ (zip keys values).

Record SpecsPaths : Type := mkSpecsPaths {
  SpecsPaths_paths : list (list string)
}.

Record SpecsPathsCollection : Type := mkSpecsPathsCollection {
  spec_paths : list SpecsPaths
}.

Record RootDestinationPair : Type := mkRootDestinationPair {
  pair_root : Target;
  destination : Target
}.

Record RootDestinationsPair : Type := mkRootDestinationsPair {
  root : Target;
  destinations : list Target
}.

Record PathsSubsystem : Type := mkPathsSubsystem {
  from_ : option string;
  to : option string
}.

Record PathsGoal : Type := mkPathsGoal {
  exit_code : Z
}.

(** Lines 127-162. *)
Definition get_paths_between_root_and_destination
    (pair : RootDestinationPair) : M SpecsPaths :=
  let* _ := print_stderr ("Loading dependencies for " +:+
                          address_str (address (pair_root pair)) +:+ "...") in
  let* closure := await (TransitiveTargets (address (pair_root pair)))
                        (transitive_targets_get (address (pair_root pair))) in
  let* _ := print_stderr ("Resolving " +:+ pretty (length closure) +:+
                          " targets...") in
  let* adjacent_targets_per_target :=
    concurrently
      ((λ tgt, await (ResolveDependencies tgt) (resolve_dependencies tgt))
         <$> closure) in
  let transitive_targets_closure_addresses := address <$> closure in
  let adjacency_lists :=
    dict_zip transitive_targets_closure_addresses adjacent_targets_per_target in
  let* _ := print_stderr ("Finding paths from " +:+
                          address_str (address (pair_root pair)) +:+ " to " +:+
                          address_str (address (destination pair)) +:+ "...") in
  match find_paths_breadth_first address adjacency_lists
          (address (pair_root pair)) (address (destination pair)) with
  | Done s =>
      (PrintStderr <$> stderr s,
       inr (mkSpecsPaths ((λ path, spec <$> path) <$> yielded s)))
  | IndexError => Rule.raise PyIndexError
  | OutOfFuel => Rule.raise Diverged
  end.

(** Lines 165-178. *)
Definition get_paths_between_root_and_destinations
    (pair : RootDestinationsPair) : M SpecsPathsCollection :=
  let* _ := print_stderr ("Finding paths to " +:+
                          pretty (length (destinations pair)) +:+
                          " destinations...") in
  let* spec_paths :=
    concurrently
      ((λ destination,
          get_paths_between_root_and_destination
            (mkRootDestinationPair (root pair) destination))
         <$> destinations pair) in
  Rule.ret (mkSpecsPathsCollection spec_paths).

(** Lines 228-230: [all_spec_paths.extend(path)] in two nested loops. *)
Definition extend_all (all_spec_paths : list (list string))
    (collections : list SpecsPathsCollection) : list (list string) :=
  foldl (λ acc spec_path,
           foldl (λ acc' path, acc' ++ path) acc
                 (SpecsPaths_paths <$> spec_paths spec_path))
        all_spec_paths collections.

(** Lines 181-235.  The text written to the output is
    [json.dumps(all_spec_paths, indent=2)]; the event keeps the value
    that is serialised. *)
Definition paths (paths_subsystem : PathsSubsystem) : M PathsGoal :=
  let path_from := from_ paths_subsystem in
  let path_to := to paths_subsystem in
  match path_from with
  | None => Rule.raise (ValueError "Must set --from")
  | Some path_from =>
      match path_to with
      | None => Rule.raise (ValueError "Must set --to")
      | Some path_to =>
          let* _ := print_stderr ("Resolving source targets from " +:+
                                  path_from +:+ "...") in
          let* from_tgts :=
            await (ResolveSpecs "the option `--paths-from`" path_from)
                  (resolve_specs "the option `--paths-from`" path_from) in
          let* to_tgts :=
            await (ResolveSpecs "the option `--paths-to`" path_to)
                  (resolve_specs "the option `--paths-to`" path_to) in
          let* _ := print_stderr ("Found " +:+ pretty (length from_tgts) +:+
                                  " source targets and " +:+
                                  pretty (length to_tgts) +:+
                                  " destination targets") in
          let* collections :=
            concurrently
              ((λ root,
                  get_paths_between_root_and_destinations
                    (mkRootDestinationsPair root to_tgts))
                 <$> from_tgts) in
          let all_spec_paths := extend_all [] collections in
          let* _ := Rule.emit (WriteStdout all_spec_paths) in
          Rule.ret (mkPathsGoal 0)
      end
  end.

(** *** Notions used to state the properties of the rules *)

(** The requests found in a list of events, in order. *)
Definition closure_request (ev : Ev) : option Address :=
  match ev with TransitiveTargets a => Some a | _ => None end.

Definition dependency_request (ev : Ev) : option Target :=
  match ev with ResolveDependencies tgt => Some tgt | _ => None end.

Definition written (ev : Ev) : option (list (list string)) :=
  match ev with WriteStdout all_spec_paths => Some all_spec_paths | _ => None end.

Definition closure_requests (w : list Ev) : list Address :=
  omap closure_request w.

Definition dependency_requests (w : list Ev) : list Target :=
  omap dependency_request w.

Definition stdout_of (w : list Ev) : list (list (list string)) :=
  omap written w.

(** The successor lists of all targets of a closure, when every
    request for them succeeds. *)
Fixpoint resolve_all (tgts : list Target) : option (list (list Target)) :=
  match tgts with
  | [] => Some []
  | tgt :: tgts' =>
      match resolve_dependencies tgt, resolve_all tgts' with
      | inr deps, Some rest => Some (deps :: rest)
      | _, _ => None
      end
  end.

(** The adjacency dictionary that lines 132-152 build for a root
    address, when the engine rules succeed. *)
Definition adjacency_of (a : Address) : option (gmap Address (list Target)) :=
  match transitive_targets_get a with
  | inr closure => dict_zip (address <$> closure) <$> resolve_all closure
  | inl _ => None
  end.

(** The paths of one (root, destination) pair in discovery order,
    rendered as specs. *)
Definition pair_paths (r d : Target) : list (list string) :=
  match adjacency_of (address r) with
  | Some adjacency_lists =>
      (λ path, spec <$> path) <$>
        paths_of (find_paths_breadth_first address adjacency_lists
                    (address r) (address d))
  | None => []
  end.

End Rules.

(** ** Example graphs of the design document *)

Definition cycle_graph : gmap string (list string) :=
  <["B" := ["A"]]> (<["A" := ["B"; "C"]]> ∅).

(** The same graph with the successors of [A] in the other order. *)
Definition cycle_graph' : gmap string (list string) :=
  <["B" := ["A"]]> (<["A" := ["C"; "B"]]> ∅).

Definition diamond_graph : gmap string (list string) :=
  <["C" := ["D"]]> (<["B" := ["D"]]> (<["A" := ["B"; "C"]]> ∅)).

(** ** Example engine rules *)

(** Engine rules that answer from the diamond: the closure of [A] is the
    whole graph, the spec [from] selects [A] and any other spec selects
    [D] and [C]. *)
Definition example_closure (a : string) : unit + list string :=
  if decide (a = "A") then inr ["A"; "B"; "C"; "D"] else inr [a].

Definition example_dependencies (tgt : string) : unit + list string :=
  inr (default [] (diamond_graph !! tgt)).

Definition example_specs (description_of_origin pattern : string)
    : unit + list string :=
  if decide (pattern = "from") then inr ["A"] else inr ["D"; "C"].

Definition example_fan_out (dests : list string)
    : Rule.M (Event string string) (Exn unit) SpecsPathsCollection :=
  get_paths_between_root_and_destinations id id id
    example_closure example_dependencies (mkRootDestinationsPair "A" dests).

Definition example_goal (sub : PathsSubsystem)
    : Rule.M (Event string string) (Exn unit) PathsGoal :=
  paths id id id example_closure example_dependencies example_specs sub.

(** * Properties of the path finder *)

Section PathFinderFacts.

Context `{Countable Address} {Target : Type}.
Variable address : Target → Address.

Implicit Types (p q : Path Address) (s : BfsState Address).
Implicit Types (adj : gmap Address (list Target)).

(** *** Lists *)

Lemma current_edge_snoc p (d : Address) :
  current_edge (p ++ [d]) d = (last p, d).
Proof.
  unfold current_edge. rewrite length_app. simpl.
  case_decide as Hlen.
  - f_equal. rewrite lookup_app_l by lia.
    rewrite last_lookup. f_equal. lia.
  - destruct p; [done | simpl in Hlen; lia].
Qed.

Lemma consecutive_pairs_snoc p (t d : Address) :
  last p = Some t →
  consecutive_pairs (p ++ [d]) = consecutive_pairs p ++ [(t, d)].
Proof.
  unfold consecutive_pairs. induction p as [|a [|b p'] IH]; intros Hl.
  - done.
  - simpl in *. by injection Hl as ->.
  - change (last (a :: b :: p')) with (last (b :: p')) in Hl.
    specialize (IH Hl). simpl in *. by rewrite IH.
Qed.

Lemma consecutive_pairs_lookup p (u v : Address) :
  (u, v) ∈ consecutive_pairs p ↔
  ∃ i : nat, p !! i = Some u ∧ p !! S i = Some v.
Proof.
  unfold consecutive_pairs. rewrite list_elem_of_lookup. split.
  - intros [i Hi]. exists i.
    apply lookup_zip_with_Some in Hi as (x & y & [= -> ->] & Hx & Hy).
    by rewrite lookup_tail in Hy.
  - intros (i & Hu & Hv). exists i.
    apply lookup_zip_with_Some. exists u, v. by rewrite lookup_tail.
Qed.

Lemma consecutive_pairs_snd p (u v : Address) :
  (u, v) ∈ consecutive_pairs p → v ∈ p.
Proof.
  rewrite consecutive_pairs_lookup. intros (i & _ & Hv).
  by eapply list_elem_of_lookup_2.
Qed.

(** *** The [for] loop in closed form *)

Lemma visit_deps_spec (to_target : Address) p (deps : list Target) s :
  let s' := foldl (visit_dep address to_target p) s deps in
  visited_edges s' = visited_edges s ∧
  to_walk_paths s' = to_walk_paths s ++ enqueued_by address to_target p deps ∧
  yielded s' = yielded s ++ found_by address to_target p deps ∧
  expanded s' = expanded s ∧
  edges_visited s' = edges_visited s.
Proof.
  revert s. induction deps as [|d deps IH]; intros s; simpl.
  - unfold enqueued_by, found_by. simpl. by rewrite !app_nil_r.
  - destruct (IH (visit_dep address to_target p s d)) as (Hv & Hq & Hy & He & Hc).
    rewrite Hv, Hq, Hy, He, Hc. clear IH Hv Hq Hy He Hc.
    unfold enqueued_by, found_by, visit_dep.
    rewrite !filter_cons. case_decide as Hd; simpl.
    + rewrite decide_False by naive_solver. simpl.
      by rewrite <- app_assoc.
    + rewrite decide_True by done. simpl.
      by rewrite <- app_assoc.
Qed.

(** *** One iteration of the [while] loop *)

Lemma bfs_body_cases adj (to_target : Address) s p rest s' :
  bfs_body address adj to_target p (popleft p rest s) = Some s' →
  ∃ t, last p = Some t ∧
       (skipped s p rest t s' ∨ expanded_step address adj to_target s p rest t s').
Proof.
  unfold bfs_body. destruct (last p) as [t|] eqn:Hl; [|done].
  intros Hs'. exists t. split; [done|].
  case_decide as He; injection Hs' as <-.
  - left. done.
  - right.
    destruct (visit_deps_spec to_target p (successors adj t)
                (count_edge (popleft p rest s))) as (Hv & Hq & Hy & Hx & Hc).
    unfold expanded_step, mark_visited. simpl.
    rewrite Hv, Hq, Hy, Hx, Hc.
    unfold count_edge. by case_decide.
Qed.

Lemma bfs_body_some adj (to_target : Address) s p rest :
  p ≠ [] → is_Some (bfs_body address adj to_target p (popleft p rest s)).
Proof.
  intros Hne. unfold bfs_body.
  destruct (exists_last Hne) as (pre & x & ->). rewrite last_snoc.
  by case_decide.
Qed.

(** A property kept by every iteration holds when the loop ends. *)
Lemma bfs_loop_invariant (P : BfsState Address → Prop) adj (to_target : Address) :
  (∀ s p rest s',
      P s → to_walk_paths s = p :: rest →
      bfs_body address adj to_target p (popleft p rest s) = Some s' → P s') →
  ∀ fuel s s',
    P s → bfs_loop address fuel adj to_target s = Done s' →
    P s' ∧ to_walk_paths s' = [].
Proof.
  intros Hstep. induction fuel as [|fuel IH]; intros s s' HP; simpl.
  - destruct (to_walk_paths s) eqn:Hq; [|done]. by intros [= <-].
  - destruct (to_walk_paths s) as [|p rest] eqn:Hq; [by intros [= <-]|].
    destruct (bfs_body address adj to_target p (popleft p rest s)) as [s1|] eqn:Hb;
      [|done].
    intros Hrun. eapply IH; [|done]. by eapply Hstep.
Qed.

(** *** Shape of queued and yielded paths *)

Lemma explored_mono adj (root dest : Address) (V V' : gset (Edge Address)) p :
  V ⊆ V' → explored address adj root dest V p →
  explored address adj root dest V' p.
Proof.
  intros HV (Hh & Hd & Hn & He). repeat split; try done.
  - apply HV. by apply He.
  - by apply He.
Qed.

Lemma queued_mono adj (root dest : Address) (V V' : gset (Edge Address)) q :
  V ⊆ V' → queued address adj root dest V q →
  queued address adj root dest V' q.
Proof.
  intros HV [->|(pre & t & d & -> & Hl & He & Hd & Hs)]; [by left|].
  right. exists pre, t, d. split_and!; eauto using explored_mono.
Qed.

Lemma found_mono adj (root dest : Address) (V V' : gset (Edge Address)) y :
  V ⊆ V' → found address adj root dest V y →
  found address adj root dest V' y.
Proof.
  intros HV (pre & t & -> & Hl & He & Hs).
  exists pre, t. split_and!; eauto using explored_mono.
Qed.

Lemma queued_last adj (root dest : Address) V q :
  queued address adj root dest V q → is_Some (last q).
Proof.
  intros [->|(pre & t & d & -> & _)]; [by eexists|].
  rewrite last_snoc. by eexists.
Qed.

(** Expanding a queued path whose edge is new makes it explored. *)
Lemma queued_explored adj (root dest : Address) V q (t : Address) :
  root ≠ dest →
  queued address adj root dest V q →
  last q = Some t →
  current_edge q t ∉ V →
  explored address adj root dest (V ∪ {[ current_edge q t ]}) q.
Proof.
  intros Hrd [->|(pre & t0 & d & -> & Hl & (Hh & Hd & Hn & He) & Hdd & Hs)] Hlq Hnew.
  - unfold explored, consecutive_pairs. simpl. split_and!.
    + done.
    + by intros ->%list_elem_of_singleton.
    + constructor.
    + intros u v Hin. by apply elem_of_nil in Hin.
  - rewrite last_snoc in Hlq. injection Hlq as <-.
    rewrite current_edge_snoc, Hl in Hnew |- *.
    unfold explored.
    rewrite (consecutive_pairs_snoc pre t0 d Hl).
    split_and!.
    + by destruct pre.
    + rewrite elem_of_app, list_elem_of_singleton.
      intros [Hin|Heq]; [done | by apply Hdd].
    + apply NoDup_app. split_and!; [done| |apply NoDup_singleton].
      intros [u v] Hin [= -> ->]%list_elem_of_singleton.
      apply Hnew. by apply He.
    + intros u v [Hin| [= -> ->]%list_elem_of_singleton]%elem_of_app.
      * split; [|by apply He]. apply elem_of_union_l. by apply He.
      * split; [|done]. apply elem_of_union_r. by apply elem_of_singleton.
Qed.

Lemma shape_inv_init adj (root dest : Address) :
  shape_inv address adj root dest (bfs_init root).
Proof.
  split; simpl.
  - intros q ->%list_elem_of_singleton. by left.
  - intros y Hy. by apply elem_of_nil in Hy.
Qed.

Lemma shape_inv_step adj (root dest : Address) s p rest s' :
  root ≠ dest →
  shape_inv address adj root dest s →
  to_walk_paths s = p :: rest →
  bfs_body address adj dest p (popleft p rest s) = Some s' →
  shape_inv address adj root dest s'.
Proof.
  intros Hrd [HQ HY] Hq Hb.
  apply bfs_body_cases in Hb as (t & Hl & [Hs|Hs]).
  - destruct Hs as (_ & Hv & Hq' & Hy' & _). split.
    + intros q Hin. rewrite Hv. apply HQ. rewrite Hq.
      rewrite Hq' in Hin. by apply elem_of_cons; right.
    + intros y Hin. rewrite Hv. apply HY. by rewrite <- Hy'.
  - destruct Hs as (Hnew & Hv & Hq' & Hy' & _).
    assert (queued address adj root dest (visited_edges s) p) as Hp.
    { apply HQ. rewrite Hq. by apply elem_of_cons; left. }
    pose proof (queued_explored adj root dest _ p t Hrd Hp Hl Hnew) as Hex.
    rewrite <- Hv in Hex.
    assert (visited_edges s ⊆ visited_edges s') as Hsub.
    { rewrite Hv. apply union_subseteq_l. }
    split.
    + intros q. rewrite Hq', elem_of_app. intros [Hin|Hin].
      * eapply queued_mono; [done|]. apply HQ. rewrite Hq.
        by apply elem_of_cons; right.
      * unfold enqueued_by in Hin.
        apply list_elem_of_fmap in Hin as (d & -> & Hd).
        apply list_elem_of_filter in Hd as [Hne Hd].
        right. exists p, t, (address d). split_and!; try done.
        apply list_elem_of_fmap. by exists d.
    + intros y. rewrite Hy', elem_of_app. intros [Hin|Hin].
      * eapply found_mono; [done|]. by apply HY.
      * unfold found_by in Hin.
        apply list_elem_of_fmap in Hin as (d & -> & Hd).
        apply list_elem_of_filter in Hd as [He Hd].
        exists p, t. rewrite He. split_and!; try done.
        rewrite <- He. apply list_elem_of_fmap. by exists d.
Qed.

(** *** Termination of the [while] loop *)

Lemma sum_list_elem_le (n : nat) (l : list nat) :
  n ∈ l → (n ≤ sum_list l)%nat.
Proof.
  induction l as [|m l IH]; [by intros ?%elem_of_nil|].
  intros [->|Hin]%elem_of_cons; simpl; [lia|]. specialize (IH Hin). lia.
Qed.

Lemma successors_length adj (t : Address) :
  (length (successors adj t) ≤ total_successors adj)%nat.
Proof.
  unfold successors, total_successors.
  destruct (adj !! t) as [l|] eqn:Hl; simpl; [|lia].
  apply sum_list_elem_le, list_elem_of_fmap. exists l. split; [done|].
  apply list_elem_of_fmap. exists (t, l). split; [done|].
  by apply elem_of_map_to_list.
Qed.

Lemma all_edges_length adj (root : Address) :
  length (all_edges address adj root) = S (total_successors adj).
Proof.
  unfold all_edges, total_successors. simpl. f_equal.
  induction (map_to_list adj) as [|[k l] kvs IH]; [done|].
  rewrite bind_cons, length_app, length_fmap. simpl. f_equal. exact IH.
Qed.

Lemma queued_edge adj (root dest : Address) V q (t : Address) :
  queued address adj root dest V q → last q = Some t →
  current_edge q t ∈ all_edges address adj root.
Proof.
  intros [->|(pre & t0 & d & -> & Hl & _ & _ & Hs)] Hlq.
  - injection Hlq as <-. apply elem_of_cons. by left.
  - rewrite last_snoc in Hlq. injection Hlq as <-.
    rewrite current_edge_snoc, Hl. apply elem_of_cons. right.
    apply list_elem_of_fmap in Hs as (x & -> & Hx).
    unfold successors in Hx.
    destruct (adj !! t0) as [l|] eqn:Hadj; simpl in Hx;
      [|by apply elem_of_nil in Hx].
    apply list_elem_of_bind. exists (t0, l). split.
    + apply list_elem_of_fmap. by exists x.
    + by apply elem_of_map_to_list.
Qed.

Lemma unvisited_shrinks (L : list (Edge Address)) (V : gset (Edge Address)) e :
  e ∈ L → e ∉ V →
  (length (filter (λ x, x ∉ V ∪ {[ e ]}) L) < length (filter (λ x, x ∉ V) L))%nat.
Proof.
  assert (∀ L' : list (Edge Address),
             (length (filter (λ x, x ∉ V ∪ {[ e ]}) L')
              ≤ length (filter (λ x, x ∉ V) L'))%nat) as Hle.
  { induction L' as [|x L' IH]; [done|]. rewrite !filter_cons.
    destruct (decide (x ∉ V ∪ {[ e ]})) as [Hx|Hx].
    - rewrite decide_True
        by (intros Hn; apply Hx; by apply elem_of_union_l).
      simpl. lia.
    - case_decide; simpl; lia. }
  induction L as [|x L IH]; [by intros ?%elem_of_nil|].
  intros Hin HV. rewrite !filter_cons.
  destruct (decide (x = e)) as [->|Hne].
  - rewrite decide_False
      by (intros Hn; apply Hn, elem_of_union_r; by apply elem_of_singleton).
    rewrite decide_True by done.
    simpl. specialize (Hle L). lia.
  - apply elem_of_cons in Hin as [->|Hin]; [done|]. specialize (IH Hin HV).
    destruct (decide (x ∈ V)) as [Hx|Hx].
    + rewrite !decide_False
        by (intros Hn; apply Hn; try apply elem_of_union_l; done).
      done.
    + rewrite !decide_True; [simpl; lia|done|].
      intros [?| ?%elem_of_singleton]%elem_of_union; done.
Qed.

Lemma bfs_measure_step adj (root dest : Address) s p rest s' :
  shape_inv address adj root dest s →
  to_walk_paths s = p :: rest →
  bfs_body address adj dest p (popleft p rest s) = Some s' →
  (bfs_measure address adj root s' < bfs_measure address adj root s)%nat.
Proof.
  intros [HQ _] Hq Hb.
  apply bfs_body_cases in Hb as (t & Hl & [Hs|Hs]).
  - destruct Hs as (_ & Hv & Hq' & _).
    unfold bfs_measure, unvisited. rewrite Hv, Hq', Hq. simpl. lia.
  - destruct Hs as (Hnew & Hv & Hq' & _).
    assert (current_edge p t ∈ all_edges address adj root) as Hin.
    { eapply queued_edge; [|done]. apply HQ. rewrite Hq.
      apply elem_of_cons. by left. }
    pose proof (unvisited_shrinks _ _ _ Hin Hnew) as Hlt.
    pose proof (successors_length adj t) as Hdeg.
    unfold bfs_measure, unvisited. rewrite Hv, Hq', Hq.
    rewrite length_app. unfold enqueued_by. rewrite length_fmap.
    pose proof (length_filter (λ d, address d ≠ dest) (successors adj t)) as Hf.
    simpl. nia.
Qed.

Lemma unvisited_length adj (root : Address) s :
  (length (unvisited address adj root s) ≤ S (total_successors adj))%nat.
Proof.
  rewrite <- (all_edges_length adj root). apply length_filter.
Qed.

Lemma bfs_measure_init adj (root : Address) :
  (bfs_measure address adj root (bfs_init root) < bfs_fuel adj)%nat.
Proof.
  unfold bfs_measure, bfs_fuel. simpl length at 1.
  pose proof (unvisited_length adj root (bfs_init root)) as Hf.
  set (n := length (unvisited address adj root (bfs_init root))) in *.
  set (m := total_successors adj) in *. clearbody n m.
  assert (S m * n ≤ S m * S m)%nat by (apply Nat.mul_le_mono_l; lia). lia.
Qed.

Lemma bfs_loop_terminates adj (root dest : Address) :
  root ≠ dest →
  ∀ fuel s,
    shape_inv address adj root dest s →
    (bfs_measure address adj root s ≤ fuel)%nat →
    ∃ s', bfs_loop address fuel adj dest s = Done s'.
Proof.
  intros Hrd. induction fuel as [|fuel IH]; intros s Hinv Hm.
  - destruct (to_walk_paths s) as [|p rest] eqn:Hq.
    + exists s. simpl. by rewrite Hq.
    + unfold bfs_measure in Hm. rewrite Hq in Hm. simpl in Hm. lia.
  - simpl. destruct (to_walk_paths s) as [|p rest] eqn:Hq; [by exists s|].
    assert (p ≠ []) as Hne.
    { destruct Hinv as [HQ _].
      destruct (queued_last adj root dest (visited_edges s) p) as [t Ht];
        [|by intros ->].
      apply HQ. rewrite Hq. apply elem_of_cons. by left. }
    destruct (bfs_body_some adj dest s p rest Hne) as [s1 Hb].
    rewrite Hb. apply IH.
    + by eapply shape_inv_step.
    + pose proof (bfs_measure_step adj root dest s p rest s1 Hinv Hq Hb). lia.
Qed.

(** More fuel than needed does not change the result. *)
Lemma bfs_loop_fuel_mono adj (dest : Address) fuel fuel' s s' :
  (fuel ≤ fuel')%nat →
  bfs_loop address fuel adj dest s = Done s' →
  bfs_loop address fuel' adj dest s = Done s'.
Proof.
  revert fuel' s. induction fuel as [|fuel IH]; intros fuel' s Hle; simpl.
  - destruct (to_walk_paths s) eqn:Hq; [|done]. intros [= <-].
    destruct fuel'; simpl; by rewrite Hq.
  - destruct (to_walk_paths s) as [|p rest] eqn:Hq.
    + intros [= <-]. destruct fuel'; simpl; by rewrite Hq.
    + destruct fuel' as [|fuel']; [lia|]. simpl. rewrite Hq.
      destruct (bfs_body address adj dest p (popleft p rest s)); [|done].
      apply IH. lia.
Qed.

(** *** The history variable and the bookkeeping of the program *)

Lemma path_edge_last p (t : Address) :
  last p = Some t → path_edge p = Some (current_edge p t).
Proof. intros Hl. unfold path_edge. by rewrite Hl. Qed.

Lemma successors_of_last_eq adj p (t : Address) :
  last p = Some t → successors_of_last adj p = successors adj t.
Proof. intros Hl. unfold successors_of_last. by rewrite Hl. Qed.

Lemma history_inv_init adj (root dest : Address) :
  history_inv address adj dest (bfs_init root).
Proof.
  unfold history_inv. simpl. split_and!; [|constructor| |done|done].
  - intros e. rewrite elem_of_nil. split; [|done].
    by intros ?%not_elem_of_empty.
  - by intros ?%elem_of_nil.
Qed.

Lemma history_inv_step adj (dest : Address) s p rest s' :
  history_inv address adj dest s →
  to_walk_paths s = p :: rest →
  bfs_body address adj dest p (popleft p rest s) = Some s' →
  history_inv address adj dest s'.
Proof.
  intros (HV & HN & HS & HC & HY) Hq Hb.
  apply bfs_body_cases in Hb as (t & Hl & [Hs|Hs]).
  - destruct Hs as (_ & Hv & _ & Hy & Hx & Hc).
    unfold history_inv. by rewrite Hv, Hy, Hx, Hc.
  - destruct Hs as (Hnew & Hv & _ & Hy & Hx & Hc).
    unfold history_inv. rewrite Hv, Hy, Hx, Hc.
    rewrite fmap_app, length_app. simpl.
    rewrite (path_edge_last p t Hl). split_and!.
    + intros e. rewrite elem_of_union, elem_of_singleton, elem_of_app,
        list_elem_of_singleton, HV.
      split; (intros [?|Heq]; [by left|right]); congruence.
    + apply NoDup_app. split_and!; [done| |apply NoDup_singleton].
      intros x Hin ->%list_elem_of_singleton. by apply Hnew, HV.
    + intros [Hin|[=]%list_elem_of_singleton]%elem_of_app. by apply HS.
    + rewrite HC. lia.
    + rewrite bind_app, HY. f_equal. simpl.
      by rewrite app_nil_r, (successors_of_last_eq adj p t Hl).
Qed.

Lemma counter_inv_step adj (dest : Address) s p rest s' :
  counter_inv s →
  to_walk_paths s = p :: rest →
  bfs_body address adj dest p (popleft p rest s) = Some s' →
  counter_inv s'.
Proof.
  unfold counter_inv. intros HC Hq Hb.
  apply bfs_body_cases in Hb as (t & Hl & [Hs|Hs]).
  - destruct Hs as (_ & Hv & _ & _ & _ & Hc). by rewrite Hv, Hc.
  - destruct Hs as (Hnew & Hv & _ & _ & _ & Hc). rewrite Hv, Hc, HC.
    rewrite size_union by (by apply disjoint_singleton_r).
    rewrite size_singleton. lia.
Qed.

(** *** Lengths *)

Lemma ordered_by_length_app (l1 l2 : list (Path Address)) :
  ordered_by_length l1 → ordered_by_length l2 →
  (∀ p q, p ∈ l1 → q ∈ l2 → (length p ≤ length q)%nat) →
  ordered_by_length (l1 ++ l2).
Proof.
  intros H1 H2 H12 i j p q Hij Hi Hj.
  apply lookup_app_Some in Hi as [Hi|[Hi1 Hi]];
    apply lookup_app_Some in Hj as [Hj|[Hj1 Hj]].
  - by eapply H1.
  - eapply H12; by eapply list_elem_of_lookup_2.
  - apply lookup_lt_Some in Hj. lia.
  - apply (H2 (i - length l1)%nat (j - length l1)%nat p q); [lia|done|done].
Qed.

Lemma ordered_by_length_const (l : list (Path Address)) (n : nat) :
  (∀ p, p ∈ l → length p = n) → ordered_by_length l.
Proof.
  intros Hn i j p q _ Hi Hj.
  rewrite (Hn p), (Hn q); [done|by eapply list_elem_of_lookup_2..].
Qed.

Lemma ordered_by_length_cons p (l : list (Path Address)) :
  ordered_by_length (p :: l) →
  ordered_by_length l ∧ ∀ q, q ∈ l → (length p ≤ length q)%nat.
Proof.
  intros Ho. split.
  - intros i j x y Hij Hi Hj. apply (Ho (S i) (S j) x y); [lia|done..].
  - intros q [j Hj]%list_elem_of_lookup_1.
    apply (Ho 0%nat (S j) p q); [lia|done..].
Qed.

Lemma enqueued_by_length (dest : Address) p (deps : list Target) q :
  q ∈ enqueued_by address dest p deps → length q = S (length p).
Proof.
  intros (d & -> & _)%list_elem_of_fmap. rewrite length_app. simpl. lia.
Qed.

Lemma found_by_length (dest : Address) p (deps : list Target) q :
  q ∈ found_by address dest p deps → length q = S (length p).
Proof.
  intros (d & -> & _)%list_elem_of_fmap. rewrite length_app. simpl. lia.
Qed.

Lemma order_inv_init (root : Address) : order_inv (bfs_init root).
Proof.
  unfold order_inv. simpl. split_and!.
  - apply (ordered_by_length_const _ 1%nat).
    by intros p ->%list_elem_of_singleton.
  - intros p q ->%list_elem_of_singleton ->%list_elem_of_singleton.
    simpl. lia.
  - by intros i j p q _ Hi.
  - by intros y q ?%elem_of_nil.
Qed.

Lemma order_inv_step adj (dest : Address) s p rest s' :
  order_inv s →
  to_walk_paths s = p :: rest →
  bfs_body address adj dest p (popleft p rest s) = Some s' →
  order_inv s'.
Proof.
  intros (HQ & HS & HY & HYQ) Hq Hb. rewrite Hq in HQ, HS, HYQ.
  apply ordered_by_length_cons in HQ as [HQ Hmin].
  assert (∀ q, q ∈ rest → (length q ≤ S (length p))%nat) as Hmax.
  { intros q Hin. apply HS; apply elem_of_cons; [by left | by right]. }
  assert (∀ y, y ∈ yielded s → (length y ≤ S (length p))%nat) as Hyp.
  { intros y Hin. apply HYQ; [done|]. apply elem_of_cons. by left. }
  apply bfs_body_cases in Hb as (t & Hl & [Hs|Hs]).
  - destruct Hs as (_ & _ & Hq' & Hy' & _).
    unfold order_inv. rewrite Hq', Hy'. split_and!; [done| |done|].
    + intros x y Hx Hy. apply HS; apply elem_of_cons; by right.
    + intros y q Hy Hin. apply HYQ; [done|]. apply elem_of_cons. by right.
  - destruct Hs as (_ & _ & Hq' & Hy' & _).
    unfold order_inv. rewrite Hq', Hy'.
    set (E := enqueued_by address dest p (successors adj t)).
    set (F := found_by address dest p (successors adj t)).
    assert (∀ q, q ∈ rest ++ E →
                 (length p ≤ length q ≤ S (length p))%nat) as Hqs.
    { intros q [Hin|Hin]%elem_of_app.
      - split; [by apply Hmin | by apply Hmax].
      - apply enqueued_by_length in Hin. lia. }
    assert (∀ y, y ∈ yielded s ++ F → (length y ≤ S (length p))%nat) as Hys.
    { intros y [Hin|Hin]%elem_of_app; [by apply Hyp|].
      apply found_by_length in Hin. lia. }
    split_and!.
    + apply ordered_by_length_app; [done| |].
      * apply (ordered_by_length_const _ (S (length p))).
        intros q Hin. by eapply enqueued_by_length.
      * intros x y Hx Hy. apply enqueued_by_length in Hy.
        specialize (Hmax x Hx). lia.
    + intros x y Hx Hy. apply Hqs in Hx, Hy. lia.
    + apply ordered_by_length_app; [done| |].
      * apply (ordered_by_length_const _ (S (length p))).
        intros q Hin. by eapply found_by_length.
      * intros x y Hx Hy. apply found_by_length in Hy.
        specialize (Hyp x Hx). lia.
    + intros y q Hy Hin. apply Hys in Hy. apply Hqs in Hin. lia.
Qed.

(** *** Complete runs *)

Lemma find_paths_self adj (x : Address) (fuel : nat) :
  find_paths_breadth_first_fuel address fuel adj x x = Done (bfs_self x).
Proof. unfold find_paths_breadth_first_fuel. by rewrite decide_True. Qed.

Lemma find_paths_run adj (root dest : Address) :
  root ≠ dest →
  ∃ s, find_paths_breadth_first address adj root dest = Done s ∧
       to_walk_paths s = [] ∧
       shape_inv address adj root dest s ∧
       history_inv address adj dest s ∧
       order_inv s ∧
       counter_inv s.
Proof.
  intros Hrd. unfold find_paths_breadth_first, find_paths_breadth_first_fuel.
  rewrite decide_False by done.
  pose proof (bfs_measure_init adj root) as Hm.
  destruct (bfs_loop_terminates adj root dest Hrd (bfs_fuel adj) (bfs_init root))
    as [s Hs]; [apply shape_inv_init | lia |].
  exists s. split; [done|].
  pose proof (bfs_loop_invariant
    (λ s, shape_inv address adj root dest s ∧
          history_inv address adj dest s ∧ order_inv s ∧ counter_inv s)
    adj dest) as Hinv.
  destruct (Hinv) with (fuel := bfs_fuel adj) (s := bfs_init root) (s' := s)
    as [(? & ? & ? & ?) ?]; [| |done|done].
  - intros s0 p rest s1 (? & ? & ? & ?) Hq Hb. split_and!.
    + by eapply shape_inv_step.
    + by eapply history_inv_step.
    + by eapply order_inv_step.
    + by eapply counter_inv_step.
  - split_and!;
      [apply shape_inv_init | by apply history_inv_init | apply order_inv_init
      | done].
Qed.

Lemma find_paths_done adj (root dest : Address) :
  ∃ s, find_paths_breadth_first address adj root dest = Done s.
Proof.
  destruct (decide (root = dest)) as [->|Hrd].
  - exists (bfs_self dest). apply find_paths_self.
  - destruct (find_paths_run adj root dest Hrd) as (s & Hs & _). by exists s.
Qed.

Lemma find_paths_fuel_enough adj (root dest : Address) (fuel : nat) s :
  (bfs_fuel adj ≤ fuel)%nat →
  find_paths_breadth_first address adj root dest = Done s →
  find_paths_breadth_first_fuel address fuel adj root dest = Done s.
Proof.
  unfold find_paths_breadth_first, find_paths_breadth_first_fuel.
  intros Hle. case_decide; [done|]. by apply bfs_loop_fuel_mono.
Qed.

(** What the shape of a yielded path gives. *)
Lemma found_walk adj (root dest : Address) V y :
  found address adj root dest V y →
  head y = Some root ∧ last y = Some dest ∧ (2 ≤ length y)%nat ∧
  NoDup (consecutive_pairs y) ∧
  (∀ u v, (u, v) ∈ consecutive_pairs y →
          ∃ deps, adj !! u = Some deps ∧ v ∈ address <$> deps) ∧
  (∀ i : nat, y !! i = Some dest → S i = length y).
Proof.
  intros (pre & t & -> & Hl & (Hh & Hd & Hn & He) & Hs).
  assert (∀ u v, v ∈ address <$> successors adj u →
                 ∃ deps, adj !! u = Some deps ∧ v ∈ address <$> deps) as Hkey.
  { intros u v. unfold successors.
    destruct (adj !! u) as [deps|]; simpl; [by exists deps|].
    by intros ?%elem_of_nil. }
  rewrite (consecutive_pairs_snoc pre t dest Hl), last_snoc, length_app.
  split_and!.
  - by destruct pre.
  - done.
  - destruct pre; [done|]. simpl. lia.
  - apply NoDup_app. split_and!; [done| |apply NoDup_singleton].
    intros [u v] Hin [= -> ->]%list_elem_of_singleton.
    by apply Hd, (consecutive_pairs_snd pre t dest).
  - intros u v [Hin|[= -> ->]%list_elem_of_singleton]%elem_of_app.
    + by apply Hkey, He.
    + by apply Hkey.
  - intros i Hi. apply lookup_app_Some in Hi as [Hi|[Hge Hi]].
    + exfalso. apply Hd. by eapply list_elem_of_lookup_2.
    + apply lookup_lt_Some in Hi. simpl in *. lia.
Qed.

End PathFinderFacts.

(** * Properties of the rules *)

Section MonadFacts.

Context {Ev Err : Type}.
Local Abbreviation M := (Rule.M Ev Err).

Lemma log_bind {A B} (m : M A) (f : A → M B) :
  Rule.log (Rule.bind m f) =
  Rule.log m ++ match Rule.result m with
                | inr a => Rule.log (f a)
                | inl _ => []
                end.
Proof.
  unfold Rule.bind.
  destruct m as [w [e|a]]; simpl; [by rewrite app_nil_r|].
  by destruct (f a).
Qed.

Lemma result_bind {A B} (m : M A) (f : A → M B) :
  Rule.result (Rule.bind m f) =
  match Rule.result m with
  | inr a => Rule.result (f a)
  | inl e => inl e
  end.
Proof.
  unfold Rule.bind. destruct m as [w [e|a]]; simpl; [done|].
  by destruct (f a).
Qed.

End MonadFacts.

Section RuleFacts.

Context `{Countable Address} {Target ExtErr : Type}.
Variable address : Target → Address.
Variable spec : Address → string.
Variable address_str : Address → string.
Variable transitive_targets_get : Address → ExtErr + list Target.
Variable resolve_dependencies : Target → ExtErr + list Target.
Variable resolve_specs : string → string → ExtErr + list Target.

Local Abbreviation Ev := (Event Address Target).
Local Abbreviation M := (Rule.M Ev (Exn ExtErr)).
Local Abbreviation pair_rule :=
  (get_paths_between_root_and_destination address spec address_str
     transitive_targets_get resolve_dependencies).
Local Abbreviation fan_out_rule :=
  (get_paths_between_root_and_destinations address spec address_str
     transitive_targets_get resolve_dependencies).
Local Abbreviation goal_rule :=
  (paths address spec address_str transitive_targets_get
     resolve_dependencies resolve_specs).
Local Abbreviation adjacency :=
  (adjacency_of address transitive_targets_get resolve_dependencies).
Local Abbreviation paths_between :=
  (pair_paths address spec transitive_targets_get resolve_dependencies).
Local Abbreviation await_dependencies :=
  (λ tgt : Target,
     await (Address := Address) (ResolveDependencies tgt)
           (resolve_dependencies tgt)).

(** *** [concurrently] *)

Lemma concurrently_cons {A} (m : M A) (ms : list (M A)) :
  concurrently (m :: ms) =
  (let* a := m in let* r := concurrently ms in Rule.ret (a :: r)).
Proof. done. Qed.

Lemma result_await {A} (ev : Ev) (r : ExtErr + A) :
  Rule.result (await ev r) =
  match r with inl e => inl (External e) | inr a => inr a end.
Proof. done. Qed.

Lemma result_concurrently_ok {A} (ms : list (M A)) (rs : list A) :
  Forall2 (λ m r, Rule.result m = inr r) ms rs →
  Rule.result (concurrently ms) = inr rs.
Proof.
  induction 1 as [|m r ms rs Hm _ IH]; [done|].
  simpl. rewrite result_bind, Hm, result_bind, IH. done.
Qed.

Lemma result_concurrently_inv {A} (ms : list (M A)) (rs : list A) :
  Rule.result (concurrently ms) = inr rs →
  Forall2 (λ m r, Rule.result m = inr r) ms rs.
Proof.
  revert rs. induction ms as [|m ms IH]; intros rs; simpl.
  - intros [= <-]. constructor.
  - rewrite result_bind. destruct (Rule.result m) as [e|a] eqn:Hm; [done|].
    rewrite result_bind.
    destruct (Rule.result (concurrently ms)) as [e|r] eqn:Hms; [done|].
    simpl. intros [= <-]. constructor; [done|]. by apply IH.
Qed.

Lemma result_concurrently_err {A} (ms : list (M A)) (e : Exn ExtErr) :
  Rule.result (concurrently ms) = inl e →
  ∃ m, m ∈ ms ∧ Rule.result m = inl e.
Proof.
  induction ms as [|m ms IH]; simpl; [done|].
  rewrite result_bind. destruct (Rule.result m) as [e'|a] eqn:Hm.
  - intros [= <-]. exists m. split; [|done]. apply elem_of_cons. by left.
  - rewrite result_bind.
    destruct (Rule.result (concurrently ms)) as [e'|r] eqn:Hms; [|done].
    intros [= <-]. destruct IH as (m' & Hin & Hm'); [done|].
    exists m'. split; [|done]. apply elem_of_cons. by right.
Qed.

Lemma log_concurrently_ok {A} (ms : list (M A)) (rs : list A) :
  Rule.result (concurrently ms) = inr rs →
  Rule.log (concurrently ms) = ms ≫= Rule.log.
Proof.
  revert rs. induction ms as [|m ms IH]; intros rs; simpl; [done|].
  rewrite result_bind, log_bind.
  destruct (Rule.result m) as [e|a] eqn:Hm; [done|].
  rewrite result_bind, log_bind.
  destruct (Rule.result (concurrently ms)) as [e|r] eqn:Hms; [done|].
  intros _. simpl. rewrite app_nil_r. f_equal. by eapply IH.
Qed.

(** Requests of a kind no member makes are not made. *)
Lemma omap_log_concurrently_nil {A X} (φ : Ev → option X) (ms : list (M A)) :
  (∀ m, m ∈ ms → omap φ (Rule.log m) = []) →
  omap φ (Rule.log (concurrently ms)) = [].
Proof.
  induction ms as [|m ms IH]; intros Hms; simpl; [done|].
  rewrite log_bind, omap_app, Hms by (apply elem_of_cons; by left).
  destruct (Rule.result m); [done|]. simpl.
  rewrite log_bind, omap_app, IH.
  - by destruct (Rule.result (concurrently ms)).
  - intros m' Hin. apply Hms, elem_of_cons. by right.
Qed.

(** *** Successor requests for a closure *)

Lemma await_dependencies_result (closure : list Target) :
  match resolve_all resolve_dependencies closure with
  | Some deps =>
      Rule.result (concurrently (await_dependencies <$> closure)) = inr deps
  | None =>
      ∃ e, Rule.result (concurrently (await_dependencies <$> closure))
           = inl (External e)
  end.
Proof.
  induction closure as [|tgt closure IH]; [done|].
  rewrite fmap_cons, concurrently_cons, result_bind, result_await.
  cbn [resolve_all].
  destruct (resolve_dependencies tgt) as [e|deps]; [by exists e|].
  rewrite result_bind.
  destruct (resolve_all resolve_dependencies closure) as [rest|].
  - by rewrite IH.
  - destruct IH as [e ->]. by exists e.
Qed.

Lemma await_dependencies_log (closure : list Target) deps :
  resolve_all resolve_dependencies closure = Some deps →
  Rule.log (concurrently (await_dependencies <$> closure))
  = ResolveDependencies <$> closure.
Proof.
  intros Hdeps.
  pose proof (await_dependencies_result closure) as Hres.
  rewrite Hdeps in Hres. rewrite (log_concurrently_ok _ _ Hres).
  clear. induction closure as [|tgt closure IH]; [done|].
  rewrite fmap_cons, bind_cons, IH. done.
Qed.

Lemma await_dependencies_no_closure_request (closure : list Target) :
  closure_requests (Rule.log (concurrently (await_dependencies <$> closure)))
  = [].
Proof.
  apply omap_log_concurrently_nil.
  by intros m (tgt & -> & _)%list_elem_of_fmap.
Qed.

Lemma await_dependencies_no_stdout (closure : list Target) :
  stdout_of (Rule.log (concurrently (await_dependencies <$> closure))) = [].
Proof.
  apply omap_log_concurrently_nil.
  by intros m (tgt & -> & _)%list_elem_of_fmap.
Qed.

(** *** The rule for one pair *)

Lemma pair_rule_result (r d : Target) :
  match adjacency (address r) with
  | Some _ =>
      Rule.result (pair_rule (mkRootDestinationPair r d))
      = inr (mkSpecsPaths (paths_between r d))
  | None =>
      ∃ e, Rule.result (pair_rule (mkRootDestinationPair r d))
           = inl (External e)
  end.
Proof.
  unfold get_paths_between_root_and_destination, pair_paths, adjacency_of.
  simpl. rewrite !result_bind. simpl.
  destruct (transitive_targets_get (address r)) as [e|closure];
    [by exists e|].
  simpl. rewrite !result_bind. simpl.
  pose proof (await_dependencies_result closure) as Hdeps.
  destruct (resolve_all resolve_dependencies closure) as [deps|]; simpl.
  - rewrite Hdeps, result_bind. simpl.
    destruct (find_paths_done address (dict_zip (address <$> closure) deps)
                (address r) (address d)) as [s ->].
    done.
  - destruct Hdeps as [e ->]. by exists e.
Qed.

Lemma closure_requests_app (w1 w2 : list Ev) :
  closure_requests (w1 ++ w2) = closure_requests w1 ++ closure_requests w2.
Proof. apply omap_app. Qed.

Lemma dependency_requests_app (w1 w2 : list Ev) :
  dependency_requests (w1 ++ w2)
  = dependency_requests w1 ++ dependency_requests w2.
Proof. apply omap_app. Qed.

Lemma stdout_of_app (w1 w2 : list Ev) :
  stdout_of (w1 ++ w2) = stdout_of w1 ++ stdout_of w2.
Proof. apply omap_app. Qed.

Lemma omap_print_stderr {X} (φ : Ev → option X) (msgs : list string) :
  (∀ msg, φ (PrintStderr msg) = None) →
  omap φ (PrintStderr <$> msgs) = [].
Proof.
  intros Hφ. induction msgs as [|msg msgs IH]; [done|].
  rewrite fmap_cons. simpl. by rewrite Hφ.
Qed.

(** The log of the search that ends the rule for one pair contains
    console output only. *)
Lemma search_log_silent {X} (φ : Ev → option X) (r d : Target)
    (adj : gmap Address (list Target)) (msg : string) :
  (∀ msg, φ (PrintStderr msg) = None) →
  omap φ
    (Rule.log
       (let* _ := print_stderr msg in
        match find_paths_breadth_first address adj (address r) (address d)
        return M SpecsPaths with
        | Done s =>
            (PrintStderr <$> stderr s,
             inr (mkSpecsPaths ((λ path, spec <$> path) <$> yielded s)))
        | IndexError => Rule.raise PyIndexError
        | OutOfFuel => Rule.raise Diverged
        end)) = [].
Proof.
  intros Hφ. rewrite log_bind. simpl. rewrite Hφ.
  destruct (find_paths_breadth_first address adj (address r) (address d));
    simpl; [|done|done].
  by apply omap_print_stderr.
Qed.

Lemma pair_rule_closure_requests (r d : Target) :
  closure_requests (Rule.log (pair_rule (mkRootDestinationPair r d)))
  = [address r].
Proof.
  unfold get_paths_between_root_and_destination. simpl.
  rewrite !log_bind. simpl.
  destruct (transitive_targets_get (address r)) as [e|closure]; [done|].
  simpl. rewrite !log_bind. simpl. f_equal.
  rewrite closure_requests_app, await_dependencies_no_closure_request.
  simpl.
  destruct (Rule.result (concurrently (await_dependencies <$> closure)));
    [done|].
  by apply search_log_silent.
Qed.

Lemma pair_rule_no_stdout (r d : Target) :
  stdout_of (Rule.log (pair_rule (mkRootDestinationPair r d))) = [].
Proof.
  unfold get_paths_between_root_and_destination. simpl.
  rewrite !log_bind. simpl.
  destruct (transitive_targets_get (address r)) as [e|closure]; [done|].
  simpl. rewrite !log_bind. simpl.
  rewrite stdout_of_app, await_dependencies_no_stdout. simpl.
  destruct (Rule.result (concurrently (await_dependencies <$> closure)));
    [done|].
  by apply search_log_silent.
Qed.

Lemma pair_rule_dependency_requests (r d : Target) closure deps :
  transitive_targets_get (address r) = inr closure →
  resolve_all resolve_dependencies closure = Some deps →
  dependency_requests (Rule.log (pair_rule (mkRootDestinationPair r d)))
  = closure.
Proof.
  intros Hc Hd.
  unfold get_paths_between_root_and_destination. simpl.
  rewrite !log_bind. simpl. rewrite Hc. simpl. rewrite !log_bind. simpl.
  pose proof (await_dependencies_result closure) as Hres.
  rewrite Hd in Hres. rewrite Hres, (await_dependencies_log closure deps Hd).
  rewrite dependency_requests_app.
  unfold dependency_requests at 2.
  rewrite search_log_silent, app_nil_r by done.
  clear. induction closure as [|tgt closure IH]; [done|].
  rewrite fmap_cons. simpl. by rewrite IH.
Qed.

(** *** The rule for one root and several destinations *)

Lemma result_concurrently_fmap {A B} (f : A → M B) (g : A → B) (l : list A) :
  (∀ x, x ∈ l → Rule.result (f x) = inr (g x)) →
  Rule.result (concurrently (f <$> l)) = inr (g <$> l).
Proof.
  intros Hf. apply result_concurrently_ok.
  apply Forall2_fmap, Forall_Forall2_diag, Forall_forall. done.
Qed.

Lemma fan_out_rule_result (r : Target) (dests : list Target) :
  (Rule.result (fan_out_rule (mkRootDestinationsPair r dests))
   = inr (mkSpecsPathsCollection
            ((λ d, mkSpecsPaths (paths_between r d)) <$> dests)) ∧
   (dests = [] ∨ is_Some (adjacency (address r))))
  ∨
  (∃ e, Rule.result (fan_out_rule (mkRootDestinationsPair r dests))
        = inl (External e)) ∧
  dests ≠ [] ∧ adjacency (address r) = None.
Proof.
  unfold get_paths_between_root_and_destinations. simpl.
  rewrite !result_bind. simpl.
  destruct (adjacency (address r)) as [adj|] eqn:Hadj.
  - left. split; [|right; by eexists].
    rewrite (result_concurrently_fmap _
               (λ d, mkSpecsPaths (paths_between r d))); [done|].
    intros d _. pose proof (pair_rule_result r d) as Hp.
    by rewrite Hadj in Hp.
  - destruct dests as [|d dests].
    + left. split; [done|by left].
    + right. split; [|done].
      rewrite fmap_cons, concurrently_cons, result_bind.
      pose proof (pair_rule_result r d) as Hp. rewrite Hadj in Hp.
      destruct Hp as [e ->]. by exists e.
Qed.

Lemma fan_out_rule_log (r : Target) (dests : list Target) coll :
  Rule.result (fan_out_rule (mkRootDestinationsPair r dests)) = inr coll →
  ∃ msg,
    Rule.log (fan_out_rule (mkRootDestinationsPair r dests))
    = PrintStderr msg ::
      (dests ≫= λ d, Rule.log (pair_rule (mkRootDestinationPair r d))).
Proof.
  unfold get_paths_between_root_and_destinations. simpl.
  rewrite !result_bind, !log_bind. simpl.
  destruct (Rule.result (concurrently _)) as [e|rs] eqn:Hrs; [done|].
  intros _. eexists. f_equal.
  rewrite (log_concurrently_ok _ _ Hrs), app_nil_r.
  clear. induction dests as [|d dests IH]; [done|].
  by rewrite fmap_cons, !bind_cons, IH.
Qed.

Lemma fan_out_rule_closure_requests (r : Target) (dests : list Target) coll :
  Rule.result (fan_out_rule (mkRootDestinationsPair r dests)) = inr coll →
  closure_requests (Rule.log (fan_out_rule (mkRootDestinationsPair r dests)))
  = replicate (length dests) (address r).
Proof.
  intros Hres. destruct (fan_out_rule_log r dests coll Hres) as [msg ->].
  simpl. clear. induction dests as [|d dests IH]; [done|].
  rewrite bind_cons, closure_requests_app, pair_rule_closure_requests, IH.
  done.
Qed.

Lemma fan_out_rule_dependency_requests (r : Target) (dests closure : list Target)
    coll :
  Rule.result (fan_out_rule (mkRootDestinationsPair r dests)) = inr coll →
  transitive_targets_get (address r) = inr closure →
  dependency_requests (Rule.log (fan_out_rule (mkRootDestinationsPair r dests)))
  = mjoin (replicate (length dests) closure).
Proof.
  intros Hres Hc. destruct (fan_out_rule_log r dests coll Hres) as [msg ->].
  destruct (fan_out_rule_result r dests)
    as [[_ [->|[adj Hadj]]]|[[e He] _]]; [done| |congruence].
  unfold adjacency_of in Hadj. rewrite Hc in Hadj.
  destruct (resolve_all resolve_dependencies closure) as [deps|] eqn:Hd;
    [|done].
  simpl. clear Hres. induction dests as [|d dests IH]; [done|].
  rewrite bind_cons, dependency_requests_app, IH.
  by rewrite (pair_rule_dependency_requests r d closure deps Hc Hd).
Qed.

Lemma fan_out_rule_no_stdout (r : Target) (dests : list Target) :
  stdout_of (Rule.log (fan_out_rule (mkRootDestinationsPair r dests))) = [].
Proof.
  unfold get_paths_between_root_and_destinations. simpl.
  rewrite !log_bind. simpl. rewrite stdout_of_app.
  unfold stdout_of at 1. rewrite omap_log_concurrently_nil.
  - by destruct (Rule.result (concurrently _)).
  - intros m (d & -> & _)%list_elem_of_fmap. apply pair_rule_no_stdout.
Qed.

(** *** The goal rule *)

Lemma extend_all_flatten (acc : list (list string))
    (collections : list SpecsPathsCollection) :
  extend_all acc collections
  = acc ++ (collections ≫= λ c, spec_paths c ≫= SpecsPaths_paths).
Proof.
  assert (∀ (l : list (list (list string))) a,
             foldl (λ acc' path, acc' ++ path) a l = a ++ mjoin l) as Hin.
  { induction l as [|x l IH]; intros a; simpl; [by rewrite app_nil_r|].
    by rewrite IH, app_assoc. }
  unfold extend_all. revert acc.
  induction collections as [|c cs IH]; intros acc; simpl;
    [by rewrite app_nil_r|].
  rewrite IH, Hin, <- app_assoc. do 2 f_equal.
  clear. induction (spec_paths c) as [|x l IH]; [done|].
  by rewrite fmap_cons, bind_cons, <- IH.
Qed.

Lemma goal_rule_unset_from (sub : PathsSubsystem) :
  from_ sub = None →
  goal_rule sub = ([], inl (ValueError "Must set --from")).
Proof. intros Hf. unfold paths. by rewrite Hf. Qed.

Lemma goal_rule_unset_to (sub : PathsSubsystem) path_from :
  from_ sub = Some path_from → to sub = None →
  goal_rule sub = ([], inl (ValueError "Must set --to")).
Proof. intros Hf Ht. unfold paths. by rewrite Hf, Ht. Qed.

(** With both options set the rule either completes with exit code 0,
    having written the flattened paths once, or fails with the failure
    of an engine rule. *)
Lemma goal_rule_set (sub : PathsSubsystem) path_from path_to :
  from_ sub = Some path_from → to sub = Some path_to →
  (Rule.result (goal_rule sub) = inr (mkPathsGoal 0) ∧
   ∃ from_tgts to_tgts,
     resolve_specs "the option `--paths-from`" path_from = inr from_tgts ∧
     resolve_specs "the option `--paths-to`" path_to = inr to_tgts ∧
     (to_tgts = [] ∨ ∀ r, r ∈ from_tgts → is_Some (adjacency (address r))) ∧
     stdout_of (Rule.log (goal_rule sub))
     = [from_tgts ≫= λ r, to_tgts ≫= λ d, paths_between r d])
  ∨ (∃ e, Rule.result (goal_rule sub) = inl (External e) ∧
          (resolve_specs "the option `--paths-from`" path_from = inl e ∨
           resolve_specs "the option `--paths-to`" path_to = inl e ∨
           ∃ r, adjacency (address r) = None)).
Proof.
  intros Hf Ht. unfold paths. rewrite Hf, Ht.
  rewrite !result_bind, !log_bind. simpl.
  destruct (resolve_specs "the option `--paths-from`" path_from)
    as [e|from_tgts]; [right; exists e; by auto|].
  simpl. rewrite !result_bind, !log_bind. simpl.
  destruct (resolve_specs "the option `--paths-to`" path_to)
    as [e|to_tgts]; [right; exists e; by auto|].
  simpl. rewrite !result_bind, !log_bind. simpl.
  set (fan := λ r, fan_out_rule (mkRootDestinationsPair r to_tgts)).
  destruct (Rule.result (concurrently (fan <$> from_tgts)))
    as [e|collections] eqn:Hres.
  - right. apply result_concurrently_err in Hres as (m & Hin & Hm).
    apply list_elem_of_fmap in Hin as (r & -> & _). unfold fan in Hm.
    destruct (fan_out_rule_result r to_tgts) as [[Hok _]|[[e' He'] [_ Hno]]];
      [congruence|].
    exists e'. split; [congruence|]. right. right. by exists r.
  - left. split; [done|].
    exists from_tgts, to_tgts. split; [done|]. split; [done|].
    apply result_concurrently_inv in Hres.
    apply Forall2_fmap_l in Hres.
    split.
    + destruct to_tgts as [|d to_tgts]; [by left|]. right. intros r Hr.
      apply list_elem_of_lookup_1 in Hr as [i Hi].
      destruct (Forall2_lookup_l _ _ _ i r Hres Hi) as (c & _ & Hc).
      unfold fan in Hc.
      destruct (fan_out_rule_result r (d :: to_tgts))
        as [[_ [?|Hs]]|[[e He] _]]; [done|done|congruence].
    + assert (collections =
              (λ r, mkSpecsPathsCollection
                      ((λ d, mkSpecsPaths (paths_between r d)) <$> to_tgts))
                <$> from_tgts) as ->.
      { clear -Hres. induction Hres as [|r c rs cs Hc _ IH]; [done|].
        rewrite fmap_cons, <- IH. f_equal. unfold fan in Hc.
        destruct (fan_out_rule_result r to_tgts) as [[Hok _]|[[e He] _]];
          congruence. }
      rewrite stdout_of_app. unfold stdout_of at 1.
      rewrite omap_log_concurrently_nil.
      * simpl. f_equal.
        rewrite extend_all_flatten. simpl.
        clear. induction from_tgts as [|r rs IH]; [done|].
        rewrite fmap_cons, !bind_cons, IH. f_equal. simpl.
        clear. induction to_tgts as [|d ds IH]; [done|].
        rewrite fmap_cons, !bind_cons, IH. done.
      * intros m (r & -> & _)%list_elem_of_fmap.
        apply fan_out_rule_no_stdout.
Qed.

Lemma resolve_all_total (closure : list Target) :
  (∀ tgt, ∃ deps, resolve_dependencies tgt = inr deps) →
  is_Some (resolve_all resolve_dependencies closure).
Proof.
  intros Hrd. induction closure as [|tgt closure [rest IH]]; [by eexists|].
  simpl. destruct (Hrd tgt) as [deps ->]. rewrite IH. by eexists.
Qed.

Lemma adjacency_total (a : Address) :
  (∀ a', ∃ closure, transitive_targets_get a' = inr closure) →
  (∀ tgt, ∃ deps, resolve_dependencies tgt = inr deps) →
  is_Some (adjacency a).
Proof.
  intros Hc Hd. unfold adjacency_of. destruct (Hc a) as [closure ->].
  destruct (resolve_all_total closure Hd) as [deps ->]. by eexists.
Qed.

Lemma paths_between_found (r d : Target) adj :
  adjacency (address r) = Some adj →
  ∃ s, find_paths_breadth_first address adj (address r) (address d) = Done s ∧
       paths_between r d = (λ path, spec <$> path) <$> yielded s.
Proof.
  intros Hadj. unfold pair_paths. rewrite Hadj.
  destruct (find_paths_done address adj (address r) (address d)) as [s Hs].
  exists s. by rewrite Hs.
Qed.

End RuleFacts.

(** * The claims about the path finder *)

(** C2.  The yielded paths come in non-decreasing length order: a path
    yielded before another one is not longer.  The output is the
    concatenation, over the expanded paths in the order they were
    dequeued, of their extensions by the destination, taken in successor
    order; the run is a function of its inputs, so this order is
    deterministic. *)
Theorem find_paths_breadth_first_shortest_first
    `{Countable Address} {Target : Type} (address : Target → Address)
    (adjacency_lists : gmap Address (list Target)) (root dest : Address) :
  ∃ s, find_paths_breadth_first address adjacency_lists root dest = Done s ∧
       (∀ (i j : nat) (p q : Path Address),
           (i < j)%nat → yielded s !! i = Some p → yielded s !! j = Some q →
           (length p ≤ length q)%nat) ∧
       (root ≠ dest →
        yielded s =
          expanded s ≫=
            (λ p, found_by address dest p (successors_of_last adjacency_lists p))).
Proof.
  destruct (decide (root = dest)) as [->|Hrd].
  - exists (bfs_self dest). split; [apply find_paths_self|]. split; [|done].
    simpl. intros i j p q Hij Hi Hj. apply lookup_lt_Some in Hj. simpl in Hj.
    lia.
  - destruct (find_paths_run address adjacency_lists root dest Hrd)
      as (s & Hs & _ & _ & Hhist & Hord).
    exists s. split; [done|]. split.
    + apply Hord.
    + intros _. apply Hhist.
Qed.

Lemma find_paths_breadth_first_shortest_first_witness :
  (length ["A"; "C"] ≤ length ["A"; "B"; "A"; "C"])%nat.
Proof.
  destruct (find_paths_breadth_first_shortest_first id cycle_graph "A" "C")
    as (s & Hs & Hord & _).
  vm_compute in Hs. injection Hs as <-.
  apply (Hord 0%nat 1%nat); [lia|reflexivity|reflexivity].
Defined.

(** C3 as stated fails on the cycle example: the run on [A→B, B→A, A→C]
    from [A] to [C] does not yield the single path [[A, C]], whichever
    way the successors of [A] are ordered. *)
Lemma cycle_example_not_one_path :
  (¬ ∃ s, find_paths_breadth_first id cycle_graph "A" "C" = Done s ∧
          yielded s = [["A"; "C"]]) ∧
  (¬ ∃ s, find_paths_breadth_first id cycle_graph' "A" "C" = Done s ∧
          yielded s = [["A"; "C"]]).
Proof.
  split; intros (s & Hs & Hy); vm_compute in Hs; injection Hs as <-;
    discriminate Hy.
Qed.

(** C3, amended.  On every adjacency dictionary, with or without cycles,
    the run comes to an end with an empty queue, within [bfs_fuel]
    iterations of the loop, and more iterations allowed change nothing.
    On the cycle example it yields [[A, C]] and then [[A, B, A, C]]. *)
Theorem find_paths_breadth_first_terminates :
  (∀ `{Countable Address} {Target : Type} (address : Target → Address)
     (adjacency_lists : gmap Address (list Target)) (root dest : Address),
      ∃ s, find_paths_breadth_first address adjacency_lists root dest = Done s ∧
           to_walk_paths s = [] ∧
           ∀ fuel : nat,
             (bfs_fuel adjacency_lists ≤ fuel)%nat →
             find_paths_breadth_first_fuel address fuel adjacency_lists root dest
             = Done s) ∧
  (∃ s, find_paths_breadth_first id cycle_graph "A" "C" = Done s ∧
        yielded s = [["A"; "C"]; ["A"; "B"; "A"; "C"]]).
Proof.
  split.
  - intros Address ? ? Target address adjacency_lists root dest.
    destruct (decide (root = dest)) as [->|Hrd].
    + exists (bfs_self dest). split; [apply find_paths_self|]. split; [done|].
      intros fuel _. apply find_paths_self.
    + destruct (find_paths_run address adjacency_lists root dest Hrd)
        as (s & Hs & Hq & _).
      exists s. split; [done|]. split; [done|].
      intros fuel Hle. by apply find_paths_fuel_enough.
  - eexists. split; [vm_compute; reflexivity|reflexivity].
Qed.

Lemma find_paths_breadth_first_terminates_witness :
  ∃ s, find_paths_breadth_first_fuel id 100 cycle_graph "A" "C" = Done s ∧
       to_walk_paths s = [].
Proof.
  destruct find_paths_breadth_first_terminates as [Hall _].
  destruct (Hall string _ _ string id cycle_graph "A" "C") as (s & _ & Hq & Hfuel).
  exists s. split; [|done]. apply Hfuel. vm_compute. lia.
Defined.

(** C4.  The body of [if current_edge not in visited_edges] is entered at
    most once per edge: the edges of the paths it was entered for are
    pairwise different and are exactly the members of [visited_edges],
    and the counter [edges_visited], incremented on each entry, ends up
    equal to the number of visited edges.  On the cycle example the edge
    [(A, B)] comes to the front of the queue twice, with [[A, B]] and
    with [[A, B, A, B]], and only the first of the two is expanded. *)
Theorem no_edge_expanded_twice :
  (∀ `{Countable Address} {Target : Type} (address : Target → Address)
     (adjacency_lists : gmap Address (list Target)) (root dest : Address),
      ∃ s, find_paths_breadth_first address adjacency_lists root dest = Done s ∧
           NoDup (path_edge <$> expanded s) ∧
           (None ∉ path_edge <$> expanded s) ∧
           (∀ e, e ∈ visited_edges s ↔ Some e ∈ path_edge <$> expanded s) ∧
           edges_visited s = Z.of_nat (length (expanded s)) ∧
           edges_visited s = Z.of_nat (size (visited_edges s))) ∧
  (∃ s, find_paths_breadth_first id cycle_graph "A" "C" = Done s ∧
        dequeued s = [["A"]; ["A"; "B"]; ["A"; "B"; "A"]; ["A"; "B"; "A"; "B"]] ∧
        expanded s = [["A"]; ["A"; "B"]; ["A"; "B"; "A"]] ∧
        path_edge ["A"; "B"; "A"; "B"] = path_edge ["A"; "B"]).
Proof.
  split.
  - intros Address ? ? Target address adjacency_lists root dest.
    destruct (decide (root = dest)) as [->|Hrd].
    + exists (bfs_self dest). split; [apply find_paths_self|]. simpl.
      split_and!; [constructor|by intros ?%elem_of_nil| |done|done].
      intros e. rewrite elem_of_nil. split; [|done].
      by intros ?%not_elem_of_empty.
    + destruct (find_paths_run address adjacency_lists root dest Hrd)
        as (s & Hs & _ & _ & (HV & HN & HS & HC & _) & _ & Hsize).
      by exists s.
  - eexists. split; [vm_compute; reflexivity|]. by split_and!.
Qed.

(** C5.  No yielded path contains the same ordered pair of consecutive
    nodes at two positions; a yielded path can still contain a node
    twice, as [[A, B, A, C]] on the cycle example does. *)
Theorem yielded_path_repeats_no_edge :
  (∀ `{Countable Address} {Target : Type} (address : Target → Address)
     (adjacency_lists : gmap Address (list Target)) (root dest : Address),
      ∃ s, find_paths_breadth_first address adjacency_lists root dest = Done s ∧
           Forall (λ p, NoDup (consecutive_pairs p)) (yielded s)) ∧
  (∃ s p, find_paths_breadth_first id cycle_graph "A" "C" = Done s ∧
          p ∈ yielded s ∧ ¬ NoDup p).
Proof.
  split.
  - intros Address ? ? Target address adjacency_lists root dest.
    destruct (decide (root = dest)) as [->|Hrd].
    + exists (bfs_self dest). split; [apply find_paths_self|]. simpl.
      repeat constructor.
    + destruct (find_paths_run address adjacency_lists root dest Hrd)
        as (s & Hs & _ & [_ HY] & _).
      exists s. split; [done|]. apply Forall_forall. intros p Hp.
      by destruct (found_walk address adjacency_lists root dest _ p (HY p Hp))
        as (_ & _ & _ & Hn & _).
  - eexists. exists ["A"; "B"; "A"; "C"].
    split; [vm_compute; reflexivity|]. split.
    + simpl. apply elem_of_cons. right. apply elem_of_cons. by left.
    + intros [Hnin _]%NoDup_cons. apply Hnin.
      apply elem_of_cons. right. apply elem_of_cons. by left.
Qed.

(** C6.  When root and destination differ, every yielded path starts at
    the root, ends at the destination, has at least two nodes, follows
    the successor lists of the dictionary at every step, and contains the
    destination at its last position only. *)
Theorem yielded_path_is_walk
    `{Countable Address} {Target : Type} (address : Target → Address)
    (adjacency_lists : gmap Address (list Target)) (root dest : Address) :
  root ≠ dest →
  ∃ s, find_paths_breadth_first address adjacency_lists root dest = Done s ∧
       ∀ p, p ∈ yielded s →
            head p = Some root ∧ last p = Some dest ∧ (2 ≤ length p)%nat ∧
            (∀ (i : nat) u v,
                p !! i = Some u → p !! S i = Some v →
                ∃ deps, adjacency_lists !! u = Some deps ∧ v ∈ address <$> deps) ∧
            (∀ i : nat, p !! i = Some dest → S i = length p).
Proof.
  intros Hrd.
  destruct (find_paths_run address adjacency_lists root dest Hrd)
    as (s & Hs & _ & [_ HY] & _).
  exists s. split; [done|]. intros p Hp.
  destruct (found_walk address adjacency_lists root dest _ p (HY p Hp))
    as (Hh & Hl & Hlen & _ & Hadj & Hlast).
  split_and!; try done.
  intros i u v Hu Hv. apply Hadj.
  apply consecutive_pairs_lookup. by exists i.
Qed.

Lemma yielded_path_is_walk_witness :
  ∃ s, find_paths_breadth_first id diamond_graph "A" "D" = Done s ∧
       ∀ p, p ∈ yielded s → head p = Some "A" ∧ last p = Some "D".
Proof.
  destruct (yielded_path_is_walk id diamond_graph "A" "D") as (s & Hs & Hw);
    [done|].
  exists s. split; [done|]. intros p Hp.
  destruct (Hw p Hp) as (Hh & Hl & _). by split.
Defined.

(** C7.  On the diamond the run yields [[A, B, D]] and then
    [[A, C, D]], and nothing else. *)
Theorem diamond_example :
  ∃ s, find_paths_breadth_first id diamond_graph "A" "D" = Done s ∧
       yielded s = [["A"; "B"; "D"]; ["A"; "C"; "D"]].
Proof. eexists. split; [vm_compute; reflexivity|reflexivity]. Qed.

(** C8.  With equal root and destination the generator yields [[X]] and
    returns before the loop: whatever the dictionary and however few
    iterations are allowed, the result is the same, and no path was
    expanded. *)
Theorem self_path
    `{Countable Address} {Target : Type} (address : Target → Address)
    (adjacency_lists : gmap Address (list Target)) (x : Address) :
  find_paths_breadth_first address adjacency_lists x x = Done (bfs_self x) ∧
  yielded (bfs_self x) = [[x]] ∧
  expanded (bfs_self x) = [] ∧
  edges_visited (bfs_self x) = 0 ∧
  (∀ (fuel : nat) (other : gmap Address (list Target)),
      find_paths_breadth_first_fuel address fuel other x x = Done (bfs_self x)).
Proof.
  split_and!; try done.
  - apply find_paths_self.
  - intros fuel other. apply find_paths_self.
Qed.

(** * The claims about the rules *)

(** C1 as stated fails: with two destinations the closure of the root is
    requested twice and the successors of every closure member twice,
    where one destination takes one request each. *)
Lemma adjacency_requested_per_destination :
  closure_requests (Rule.log (example_fan_out ["D"])) = ["A"] ∧
  closure_requests (Rule.log (example_fan_out ["D"; "C"])) = ["A"; "A"] ∧
  closure_requests (Rule.log (example_fan_out ["D"; "C"])) ≠ ["A"] ∧
  dependency_requests (Rule.log (example_fan_out ["D"; "C"]))
  = ["A"; "B"; "C"; "D"; "A"; "B"; "C"; "D"].
Proof. split_and!; [by vm_compute..| |by vm_compute]. by vm_compute. Qed.

(** C1, amended.  When the rule for a root and N destinations completes,
    the closure of the root has been requested N times and the
    successors of each closure member N times, once per destination; for
    N ≥ 1 every one of the N searches ran on a dictionary equal to the
    one [adjacency_of] gives for the root. *)
Theorem adjacency_requested_once_per_destination
    `{Countable Address} {Target ExtErr : Type}
    (address : Target → Address) (spec address_str : Address → string)
    (transitive_targets_get : Address → ExtErr + list Target)
    (resolve_dependencies : Target → ExtErr + list Target)
    (r : Target) (dests : list Target) (coll : SpecsPathsCollection) :
  let run :=
    get_paths_between_root_and_destinations address spec address_str
      transitive_targets_get resolve_dependencies
      (mkRootDestinationsPair r dests) in
  Rule.result run = inr coll →
  closure_requests (Rule.log run) = replicate (length dests) (address r) ∧
  (∀ closure,
      transitive_targets_get (address r) = inr closure →
      dependency_requests (Rule.log run)
      = mjoin (replicate (length dests) closure)) ∧
  (dests ≠ [] →
   ∃ adjacency_lists,
     adjacency_of address transitive_targets_get resolve_dependencies (address r)
     = Some adjacency_lists ∧
     spec_paths coll =
       (λ d, mkSpecsPaths
               ((λ path, spec <$> path) <$>
                  paths_of (find_paths_breadth_first address adjacency_lists
                              (address r) (address d)))) <$> dests).
Proof.
  intros run Hres. subst run. split_and!.
  - by eapply fan_out_rule_closure_requests.
  - intros closure Hc. by eapply fan_out_rule_dependency_requests.
  - intros Hne.
    destruct (fan_out_rule_result address spec address_str
                transitive_targets_get resolve_dependencies r dests)
      as [[Hok [?|[adj Hadj]]]|[[e He] _]]; [done| |congruence].
    exists adj. split; [done|].
    rewrite Hok in Hres. injection Hres as <-. simpl.
    apply list_fmap_ext. intros i d _. unfold pair_paths. by rewrite Hadj.
Qed.

Lemma adjacency_requested_once_per_destination_witness :
  closure_requests (Rule.log (example_fan_out ["D"; "C"])) = replicate 2 "A".
Proof.
  unfold example_fan_out.
  eapply (adjacency_requested_once_per_destination id id id
            example_closure example_dependencies "A" ["D"; "C"]).
  vm_compute. reflexivity.
Defined.

(** C9.  When the goal completes, what it writes is the concatenation,
    over the roots in the order the [--from] spec resolved to and the
    destinations in the order the [--to] spec resolved to, of the paths
    of each pair in the order the search of that pair yielded them. *)
Theorem paths_output_is_flattened_in_order
    `{Countable Address} {Target ExtErr : Type}
    (address : Target → Address) (spec address_str : Address → string)
    (transitive_targets_get : Address → ExtErr + list Target)
    (resolve_dependencies : Target → ExtErr + list Target)
    (resolve_specs : string → string → ExtErr + list Target)
    (paths_subsystem : PathsSubsystem) (goal : PathsGoal) :
  let run :=
    paths address spec address_str transitive_targets_get
      resolve_dependencies resolve_specs paths_subsystem in
  let paths_between :=
    pair_paths address spec transitive_targets_get resolve_dependencies in
  Rule.result run = inr goal →
  ∃ path_from path_to from_tgts to_tgts,
    from_ paths_subsystem = Some path_from ∧
    to paths_subsystem = Some path_to ∧
    resolve_specs "the option `--paths-from`" path_from = inr from_tgts ∧
    resolve_specs "the option `--paths-to`" path_to = inr to_tgts ∧
    stdout_of (Rule.log run)
    = [from_tgts ≫= λ r, to_tgts ≫= λ d, paths_between r d] ∧
    ∀ r d, r ∈ from_tgts → d ∈ to_tgts →
      ∃ adjacency_lists s,
        adjacency_of address transitive_targets_get resolve_dependencies
          (address r) = Some adjacency_lists ∧
        find_paths_breadth_first address adjacency_lists (address r) (address d)
        = Done s ∧
        paths_between r d = (λ path, spec <$> path) <$> yielded s.
Proof.
  intros run paths_between Hres. subst run paths_between.
  destruct (from_ paths_subsystem) as [path_from|] eqn:Hf.
  2: { rewrite goal_rule_unset_from in Hres by done. done. }
  destruct (to paths_subsystem) as [path_to|] eqn:Ht.
  2: { rewrite (goal_rule_unset_to _ _ _ _ _ _ _ path_from) in Hres by done.
       done. }
  destruct (goal_rule_set address spec address_str transitive_targets_get
              resolve_dependencies resolve_specs paths_subsystem
              path_from path_to Hf Ht)
    as [[_ (from_tgts & to_tgts & Hfrom & Hto & Hadj & Hout)]|[e [He _]]];
    [|congruence].
  exists path_from, path_to, from_tgts, to_tgts. split_and!; try done.
  intros r d Hr Hd.
  destruct Hadj as [->|Hadj]; [by apply elem_of_nil in Hd|].
  destruct (Hadj r Hr) as [adj Hsome]. exists adj.
  destruct (paths_between_found address spec transitive_targets_get
              resolve_dependencies r d adj Hsome) as (s & Hs & Hp).
  by exists s.
Qed.

Lemma paths_output_is_flattened_in_order_witness :
  stdout_of (Rule.log (example_goal (mkPathsSubsystem (Some "from") (Some "to"))))
  = [[["A"; "B"; "D"]; ["A"; "C"; "D"]; ["A"; "C"]]].
Proof.
  destruct (paths_output_is_flattened_in_order id id id
              example_closure example_dependencies example_specs
              (mkPathsSubsystem (Some "from") (Some "to")) (mkPathsGoal 0))
    as (path_from & path_to & from_tgts & to_tgts & Hf & Ht & Hfrom & Hto
        & Hout & _); [by vm_compute|].
  simpl in Hf, Ht. injection Hf as <-. injection Ht as <-.
  vm_compute in Hfrom, Hto. injection Hfrom as <-. injection Hto as <-.
  unfold example_goal. rewrite Hout. by vm_compute.
Defined.

(** C10.  The goal raises [ValueError] exactly when [--from] or [--to]
    is unset, and then it has done nothing at all before: no console
    output, no request to the engine.  A run that completes returns exit
    code 0 whatever it found; any other failure is the failure of an
    engine rule, and when no engine rule fails and both options are set
    the run completes. *)
Theorem paths_fails_iff_option_unset
    `{Countable Address} {Target ExtErr : Type}
    (address : Target → Address) (spec address_str : Address → string)
    (transitive_targets_get : Address → ExtErr + list Target)
    (resolve_dependencies : Target → ExtErr + list Target)
    (resolve_specs : string → string → ExtErr + list Target)
    (paths_subsystem : PathsSubsystem) :
  let run :=
    paths address spec address_str transitive_targets_get
      resolve_dependencies resolve_specs paths_subsystem in
  ((∃ msg, Rule.result run = inl (ValueError msg)) ↔
   (from_ paths_subsystem = None ∨ to paths_subsystem = None)) ∧
  (from_ paths_subsystem = None ∨ to paths_subsystem = None →
   Rule.log run = []) ∧
  (∀ goal, Rule.result run = inr goal → exit_code goal = 0) ∧
  (∀ e, Rule.result run = inl e →
        (∃ msg, e = ValueError msg) ∨ (∃ x, e = External x)) ∧
  ((∀ origin pattern, ∃ tgts, resolve_specs origin pattern = inr tgts) →
   (∀ a, ∃ closure, transitive_targets_get a = inr closure) →
   (∀ tgt, ∃ deps, resolve_dependencies tgt = inr deps) →
   is_Some (from_ paths_subsystem) → is_Some (to paths_subsystem) →
   Rule.result run = inr (mkPathsGoal 0)).
Proof.
  intros run. subst run.
  destruct (from_ paths_subsystem) as [path_from|] eqn:Hf.
  2: { rewrite goal_rule_unset_from by done. simpl. split_and!.
       - split; [by left | by eexists].
       - done.
       - done.
       - intros e [= <-]. left. by eexists.
       - by intros _ _ _ [? [=]]. }
  destruct (to paths_subsystem) as [path_to|] eqn:Ht.
  2: { rewrite (goal_rule_unset_to _ _ _ _ _ _ _ path_from) by done. simpl.
       split_and!.
       - split; [by right | by eexists].
       - done.
       - done.
       - intros e [= <-]. left. by eexists.
       - by intros _ _ _ _ [? [=]]. }
  destruct (goal_rule_set address spec address_str transitive_targets_get
              resolve_dependencies resolve_specs paths_subsystem
              path_from path_to Hf Ht)
    as [[Hok _]|(e & He & Hwhy)].
  - rewrite Hok. split_and!.
    + split; [by intros [msg [=]] | by intros [[=]|[=]]].
    + by intros [[=]|[=]].
    + by intros goal [= <-].
    + by intros e [=].
    + done.
  - rewrite He. split_and!.
    + split; [by intros [msg [=]] | by intros [[=]|[=]]].
    + by intros [[=]|[=]].
    + by intros goal [=].
    + intros e' [= <-]. right. by eexists.
    + intros Hspecs Hclosure Hdeps _ _. exfalso.
      destruct Hwhy as [Hw|[Hw|[r Hw]]].
      * destruct (Hspecs "the option `--paths-from`" path_from). congruence.
      * destruct (Hspecs "the option `--paths-to`" path_to). congruence.
      * destruct (adjacency_total address transitive_targets_get
                    resolve_dependencies (address r) Hclosure Hdeps).
        congruence.
Qed.

Lemma paths_fails_iff_option_unset_witness :
  Rule.log (example_goal (mkPathsSubsystem (Some "from") None)) = [] ∧
  Rule.result (example_goal (mkPathsSubsystem (Some "from") (Some "to")))
  = inr (mkPathsGoal 0).
Proof.
  split.
  - apply (paths_fails_iff_option_unset id id id example_closure
             example_dependencies example_specs
             (mkPathsSubsystem (Some "from") None)).
    by right.
  - apply (paths_fails_iff_option_unset id id id example_closure
             example_dependencies example_specs
             (mkPathsSubsystem (Some "from") (Some "to"))).
    + intros origin pattern. unfold example_specs. case_decide; by eexists.
    + intros a. unfold example_closure. case_decide; by eexists.
    + intros tgt. by eexists.
    + by eexists.
    + by eexists.
Defined.
